(** * addfs: per-node additions overlay (file/addfs/per_node.go)

    A shallow embedding of [ApplyPerNodeFuncs] and of the two directory
    types it builds, [perNodeImpl] (the overlay wrapper) and [perNodeAdds]
    (the [...] additions directory), together with the part of package
    [fsnode] they are written against. *)

From Stdlib Require Import ZArith String List Permutation.
From stdpp Require Import base option list gmap strings fin_maps.

Local Open Scope Z_scope.

(** ** os.FileMode, time.Duration, time.Time *)

(** [os.FileMode] is a [uint32]; only [&] and [|] are applied to it, so
    no wrap-around has to be written out. *)
Definition FileMode := Z.
(** [time.Duration] counts nanoseconds in an [int64]; it is only copied. *)
Definition Duration := Z.
(** [time.Time], as an instant; it is only copied. *)
Definition Time := Z.

Definition ModeDir : FileMode := Z.shiftl 1 31.
(** [os.ModePerm], octal 0777. *)
Definition ModePerm : FileMode := 511.
(** The three execute bits, octal [0111] in the source. *)
Definition execBits : FileMode := 73.

(** [FileMode.Perm]: [m & ModePerm]. *)
Definition Perm (m : FileMode) : FileMode := Z.land m ModePerm.

(** ** fsnode.FileInfo *)

(** Modelled from the spec: package [fsnode] is not part of the sources
    at hand. Its [FileInfo] carries the metadata the spec enumerates
    (name, permission bits inside the mode, modification time, and the
    cache-validity duration), plus the size. The same record stands for
    the [os.FileInfo] values that [Info()] returns. *)
Record FileInfo : Type := mkFileInfo {
  Name : string;
  Size : Z;
  Mode : FileMode;
  ModTime : Time;
  cacheableFor : Duration
}.

(** Modelled from the spec: [fsnode.NewDirInfo] gives a directory's
    metadata with the given name; every other field is the zero value. *)
Definition NewDirInfo (name : string) : FileInfo :=
  mkFileInfo name 0 ModeDir 0 0.

(** Modelled from the spec: [fsnode.CopyFileInfo] copies every field. *)
Definition CopyFileInfo (info : FileInfo) : FileInfo :=
  mkFileInfo (Name info) (Size info) (Mode info) (ModTime info)
             (cacheableFor info).

(** Modelled from the spec: the [With...] setters of [fsnode.FileInfo]
    return a copy with one attribute replaced. *)
Definition WithName (f : FileInfo) (name : string) : FileInfo :=
  mkFileInfo name (Size f) (Mode f) (ModTime f) (cacheableFor f).

Definition WithModTime (f : FileInfo) (t : Time) : FileInfo :=
  mkFileInfo (Name f) (Size f) (Mode f) t (cacheableFor f).

(** Modelled from the spec: [WithModePerm] replaces the permission bits
    of the mode and keeps the others (the file type). *)
Definition WithModePerm (f : FileInfo) (perm : FileMode) : FileInfo :=
  mkFileInfo (Name f) (Size f)
             (Z.lor (Z.land perm ModePerm) (Z.ldiff (Mode f) ModePerm))
             (ModTime f) (cacheableFor f).

Definition WithCacheableFor (f : FileInfo) (d : Duration) : FileInfo :=
  mkFileInfo (Name f) (Size f) (Mode f) (ModTime f) d.

(** ** Errors *)

(** Go [error] values: the not-found failure of a child lookup, any
    failure raised by a collaborator, and [fmt.Errorf] with [%w], which
    keeps the formatted message and the wrapped cause. *)
Inductive error : Type :=
| ErrNotExist (name : string)
| ErrOther (msg : string)
| ErrWrapped (msg : string) (cause : error).

(** [err.Error()]. *)
Definition ErrorString (e : error) : string :=
  match e with
  | ErrNotExist name => name +:+ ": not found"
  | ErrOther msg => msg
  | ErrWrapped msg _ => msg
  end.

(** [errors.Unwrap]. *)
Definition Unwrap (e : error) : option error :=
  match e with
  | ErrWrapped _ cause => Some cause
  | _ => None
  end.

(** A Go [(value, error)] pair. *)
Inductive result (A : Type) : Type :=
| Ok (a : A)
| Err (e : error).
Arguments Ok {A} a.
Arguments Err {A} e.

Definition addsDirName : string := "...".

Section Model.

(** [context.Context], and the values that implement [PerNodeFunc]. The
    functions are kept as first-order values so that nodes can hold them;
    [Apply] below gives each its method. *)
Variable context : Type.
Variable PerNodeFunc : Type.

(** ** Nodes

    [fsnode.T] is a leaf or a [fsnode.Parent]. The parents are: any
    directory of the caller ([Dir], given by what its methods return),
    the two struct types of the source, and the directory that
    [fsnode.NewParent] builds around the closure of [newAddsForChild]
    ([parentImpl], which keeps what that closure captures: the original
    entry and [n.fns]). *)
Inductive T : Type :=
| Leaf (info : FileInfo) (cacheable : option Duration)
| Par (p : Parent)
with Parent : Type :=
| Dir (info : FileInfo) (cacheable : option Duration)
      (child : context -> string -> result T)
      (children : list T) (childrenErr : option error)
| perNodeImpl (original : Parent) (fns : list PerNodeFunc) (adds : Parent)
| perNodeAdds (info : FileInfo) (original : Parent) (fns : list PerNodeFunc)
| parentImpl (info : FileInfo) (original : T) (fns : list PerNodeFunc).

(** ** Observable effects

    What a call does besides returning: lookups and listings it makes on
    the caller's directories, the functions it applies, and the lines it
    sends to [log.Error]. *)
Inductive event : Type :=
| EvLookup (dir name : string)
| EvList (dir : string)
| EvApply (fn : PerNodeFunc) (entry : string)
| EvLogError (msg : string).

(** A computation: the events it emitted, and its Go result. *)
Definition M (A : Type) : Type := (list event * result A)%type.

Definition ret {A} (a : A) : M A := ([], Ok a).
Definition fail {A} (e : error) : M A := ([], Err e).
Definition tell (tr : list event) : M unit := (tr, Ok tt).
Definition lift {A} (r : result A) : M A := ([], r).
Definition bind {A B} (m : M A) (k : A -> M B) : M B :=
  match m with
  | (tr, Ok a) => let '(tr', r) := k a in (tr ++ tr', r)
  | (tr, Err e) => (tr, Err e)
  end.

#[local] Notation "x <~ m ; k" := (bind m (fun x => k))
  (at level 100, m at next level, right associativity, only parsing).
#[local] Notation "m ;>> k" := (bind m (fun _ => k))
  (at level 100, right associativity, only parsing).


(** ** Methods every node has *)

(** [Info()]. [perNodeImpl] embeds the original [fsnode.Parent], so its
    [Info] is the original's; [perNodeAdds] and the [NewParent] directory
    embed their own [fsnode.FileInfo]. *)
Fixpoint InfoP (p : Parent) : FileInfo :=
  match p with
  | Dir info _ _ _ _ => info
  | perNodeImpl original _ _ => InfoP original
  | perNodeAdds info _ _ => info
  | parentImpl info _ _ => info
  end.

Definition Info (n : T) : FileInfo :=
  match n with
  | Leaf info _ => info
  | Par p => InfoP p
  end.

(** Modelled from the spec: [fsnode.CacheableFor] is the duration of the
    node's optional Cacheable capability, and zero without it. For
    [perNodeImpl] this is line 96; the other two get the method from the
    [FileInfo] they embed. *)
Fixpoint CacheableForP (p : Parent) : Duration :=
  match p with
  | Dir _ cacheable _ _ _ => default 0 cacheable
  | perNodeImpl original _ _ => CacheableForP original
  | perNodeAdds info _ _ => cacheableFor info
  | parentImpl info _ _ => cacheableFor info
  end.

Definition CacheableFor (n : T) : Duration :=
  match n with
  | Leaf _ cacheable => default 0 cacheable
  | Par p => CacheableForP p
  end.

(** ** fsnode.Iterator

    An iterator is taken by what draining it gives: the events of the
    calls it makes, the nodes it yields, and the failure that ended it,
    if any. *)
Definition Iterator : Type := (list event * (list T * option error))%type.

(** Modelled from the spec: [fsnode.NewIterator] yields the given nodes. *)
Definition NewIterator (nodes : list T) : Iterator := ([], (nodes, None)).

(** Modelled from the spec: what a mapped iterator yields, absent with
    package [fsnode]: each node through [f], up to the first failure of
    [f]. *)
Fixpoint mapItems (f : T -> result T) (items : list T) (err : option error)
  : list T * option error :=
  match items with
  | [] => ([], err)
  | n :: rest =>
      match f n with
      | Ok n' => let '(out, err') := mapItems f rest err in (n' :: out, err')
      | Err e => ([], Some e)
      end
  end.

(** Modelled from the spec: [fsnode.MapIterator] maps each node the
    underlying iterator yields (per-item mapping of a lazy sequence). *)
Definition MapIterator (ctx : context) (it : Iterator)
           (f : context -> T -> result T) : Iterator :=
  let '(tr, (items, err)) := it in (tr, mapItems (f ctx) items err).

(** Modelled from the spec: [fsnode.NewConcatIterator] yields the first
    iterator's nodes and then the second's; a failure ends it. *)
Definition NewConcatIterator (it1 it2 : Iterator) : Iterator :=
  match it1 with
  | (tr1, (items1, Some e)) => (tr1, (items1, Some e))
  | (tr1, (items1, None)) =>
      let '(tr2, (items2, err2)) := it2 in
      (tr1 ++ tr2, (items1 ++ items2, err2))
  end.

(** Modelled from the spec: the iterator of a directory built by
    [fsnode.NewParent] yields what its children generator returns, or
    ends with the generator's failure. *)
Definition NewLazyIterator (gen : M (list T)) : Iterator :=
  match gen with
  | (tr, Ok children) => (tr, (children, None))
  | (tr, Err e) => (tr, ([], Some e))
  end.

(** Modelled from the spec: [Child] of a directory built by
    [fsnode.NewParent] generates the children and returns the one of
    that name, or fails with NotFound. *)
Definition generatedChild (gen : M (list T)) (name : string) : M T :=
  children <~ gen;
  match find (fun c => String.eqb (Name (Info c)) name) children with
  | Some c => ret c
  | None => fail (ErrNotExist name)
  end.

(** ** The source *)

Definition ApplyPerNodeFuncs (original : Parent) (fns : list PerNodeFunc)
  : Parent :=
  let adds :=
    perNodeAdds (WithName (CopyFileInfo (InfoP original)) addsDirName)
                original fns in
  perNodeImpl original fns adds.

Definition perNodeRecurse (node : T) (fns : list PerNodeFunc) : T :=
  match node with
  | Par parent => Par (ApplyPerNodeFuncs parent fns)
  | _ => node
  end.

(** [perNodeAdds.newAddsForChild], with the closure kept as data. *)
Definition newAddsForChild (n_fns : list PerNodeFunc) (original : T)
  : Parent :=
  let originalInfo := Info original in
  parentImpl
    (WithCacheableFor
       (WithModePerm
          (WithModTime (NewDirInfo (Name originalInfo))
                       (ModTime originalInfo))
          (Z.lor (Perm (Mode originalInfo)) execBits))
       (CacheableFor original))
    original n_fns.

(** The method of each [PerNodeFunc], how [%v] prints it, and the order
    in which one [range] over the [adds] map visits its entries. Go
    leaves that order unspecified and varies it from one loop to the
    next; [valid_order] is all a caller may rely on. *)
Variable Apply : PerNodeFunc -> context -> T -> result (list T).
Variable fmtV : PerNodeFunc -> string.
Variable ord : list (string * T) -> list (string * T).

(** [log.Error.Printf("addfs %s: conflict for added name: %s", ...)]. *)
Definition conflictMsg (entry name : string) : string :=
  "addfs " +:+ entry +:+ ": conflict for added name: " +:+ name.

(** [fmt.Errorf("addfs: error running func %v: %w", fn, err)]. *)
Definition errRunningFunc (fn : PerNodeFunc) (err : error) : error :=
  ErrWrapped ("addfs: error running func " +:+ fmtV fn +:+ ": "
              +:+ ErrorString err) err.

(** Lines 162-169: the inner loop over one function's additions. *)
Fixpoint mergeAdds (entry : string) (fnAdds : list T)
         (adds : gmap string T) : M (gmap string T) :=
  match fnAdds with
  | [] => ret adds
  | add :: rest =>
      let name := Name (Info add) in
      (match adds !! name with
       | Some _ => tell [EvLogError (conflictMsg entry name)]
       | None => ret tt
       end) ;>>
      mergeAdds entry rest (<[name := add]> adds)
  end.

(** Lines 157-170: the loop over [n.fns]. *)
Fixpoint runFuncs (ctx : context) (original : T) (fns : list PerNodeFunc)
         (adds : gmap string T) : M (gmap string T) :=
  match fns with
  | [] => ret adds
  | fn :: rest =>
      tell [EvApply fn (Name (Info original))] ;>>
      match Apply fn ctx original with
      | Err err => fail (errRunningFunc fn err)
      | Ok fnAdds =>
          adds' <~ mergeAdds (Name (Info original)) fnAdds adds;
          runFuncs ctx original rest adds'
      end
  end.

(** Lines 155-176: the closure given to [fsnode.FuncChildren]. *)
Definition addsChildren (ctx : context) (n_fns : list PerNodeFunc)
           (original : T) : M (list T) :=
  adds <~ runFuncs ctx original n_fns ∅;
  ret (map (fun kv => perNodeRecurse (snd kv) n_fns)
           (ord (map_to_list adds))).

(** [Child(ctx, name)] of each parent: the caller's directory answers
    for itself, [perNodeImpl.Child] is lines 97-106 and
    [perNodeAdds.Child] lines 132-138. *)
Fixpoint Child (ctx : context) (n : Parent) (name : string) : M T :=
  match n with
  | Dir info _ child _ _ =>
      tell [EvLookup (Name info) name] ;>> lift (child ctx name)
  | perNodeImpl original fns adds =>
      if String.eqb name addsDirName then ret (Par adds)
      else
        child <~ Child ctx original name;
        ret (perNodeRecurse child fns)
  | perNodeAdds _ original fns =>
      child <~ Child ctx original name;
      ret (Par (newAddsForChild fns child))
  | parentImpl _ original fns =>
      generatedChild (addsChildren ctx fns original) name
  end.

(** [Children()] of each parent, drained with [ctx]:
    [perNodeImpl.Children] is lines 107-116 and [perNodeAdds.Children]
    lines 139-144. *)
Fixpoint Children (ctx : context) (n : Parent) : Iterator :=
  match n with
  | Dir info _ _ children childrenErr =>
      ([EvList (Name info)], (children, childrenErr))
  | perNodeImpl original fns adds =>
      NewConcatIterator
        (NewIterator [Par adds])
        (MapIterator ctx (Children ctx original)
                     (fun _ child => Ok (perNodeRecurse child fns)))
  | perNodeAdds _ original fns =>
      MapIterator ctx (Children ctx original)
                  (fun _ child => Ok (Par (newAddsForChild fns child)))
  | parentImpl _ original fns =>
      NewLazyIterator (addsChildren ctx fns original)
  end.

End Model.

Arguments Leaf {context PerNodeFunc} info cacheable.
Arguments Par {context PerNodeFunc} p.
Arguments Dir {context PerNodeFunc} info cacheable child children childrenErr.
Arguments perNodeImpl {context PerNodeFunc} original fns adds.
Arguments perNodeAdds {context PerNodeFunc} info original fns.
Arguments parentImpl {context PerNodeFunc} info original fns.
Arguments EvLookup {PerNodeFunc} dir name.
Arguments EvList {PerNodeFunc} dir.
Arguments EvApply {PerNodeFunc} fn entry.
Arguments EvLogError {PerNodeFunc} msg.
Arguments InfoP {context PerNodeFunc} p.
Arguments Info {context PerNodeFunc} n.
Arguments CacheableForP {context PerNodeFunc} p.
Arguments CacheableFor {context PerNodeFunc} n.
Arguments ApplyPerNodeFuncs {context PerNodeFunc} original fns.
Arguments perNodeRecurse {context PerNodeFunc} node fns.
Arguments newAddsForChild {context PerNodeFunc} n_fns original.
Arguments mergeAdds {context PerNodeFunc} entry fnAdds adds.
Arguments runFuncs {context PerNodeFunc} Apply fmtV ctx original fns adds.
Arguments addsChildren {context PerNodeFunc} Apply fmtV ord ctx n_fns original.
Arguments Child {context PerNodeFunc} Apply fmtV ord ctx n name.
Arguments Children {context PerNodeFunc} Apply fmtV ord ctx n.
Arguments errRunningFunc {PerNodeFunc} fmtV fn err.
Arguments mapItems {context PerNodeFunc} f items err.
Arguments NewIterator {context PerNodeFunc} nodes.
Arguments MapIterator {context PerNodeFunc} ctx it f.
Arguments NewConcatIterator {context PerNodeFunc} it1 it2.
Arguments NewLazyIterator {context PerNodeFunc} gen.
Arguments generatedChild {context PerNodeFunc} gen name.

(** ** Vocabulary of the statements *)

(** All that Go promises of one [range] over a map: every entry is
    visited once. *)
Definition valid_order {A : Type} (ord : list A -> list A) : Prop :=
  forall l, Permutation (ord l) l.

(** The functions a computation applied, in the order of the calls. *)
Definition appliedFuncs {PerNodeFunc : Type}
           (tr : list (event PerNodeFunc)) : list PerNodeFunc :=
  omap (fun ev => match ev with EvApply fn _ => Some fn | _ => None end) tr.

(** The map that the inner loop (lines 162-169) leaves: each addition
    stored under its name, in encounter order. *)
Definition insertAdds {context PerNodeFunc : Type}
           (fnAdds : list (T context PerNodeFunc))
           (adds : gmap string (T context PerNodeFunc))
  : gmap string (T context PerNodeFunc) :=
  fold_left (fun acc add => <[Name (Info add) := add]> acc) fnAdds adds.

(** Every entry of the accumulator is stored under its own name. *)
Definition keyed_by_name {context PerNodeFunc : Type}
           (adds : gmap string (T context PerNodeFunc)) : Prop :=
  forall k v, adds !! k = Some v -> Name (Info v) = k.

(** Is the node's name [x]? *)
Definition named {context PerNodeFunc : Type} (x : string)
           (n : T context PerNodeFunc) : bool :=
  String.eqb (Name (Info n)) x.

(** The lines a computation sent to [log.Error], in order. *)
Definition loggedLines {PerNodeFunc : Type}
           (tr : list (event PerNodeFunc)) : list string :=
  omap (fun ev => match ev with EvLogError msg => Some msg | _ => None end)
       tr.

(** Parents that stand over a directory of the caller through wrappers
    and additions directories only, with no per-entry directory on the
    way down the [original] fields. *)
Fixpoint overOriginal {context PerNodeFunc : Type}
         (p : Parent context PerNodeFunc) : bool :=
  match p with
  | Dir _ _ _ _ _ => true
  | perNodeImpl original _ _ => overOriginal original
  | perNodeAdds _ original _ => overOriginal original
  | parentImpl _ _ _ => false
  end.

(** A caller resolving a path: [Child] once per component, from [n]
    down. A leaf met before the last component ends the walk. *)
Fixpoint walk {context PerNodeFunc : Type}
         (Apply : PerNodeFunc -> context -> T context PerNodeFunc
                  -> result (list (T context PerNodeFunc)))
         (fmtV : PerNodeFunc -> string)
         (ord : list (string * T context PerNodeFunc)
                -> list (string * T context PerNodeFunc))
         (ctx : context) (n : Parent context PerNodeFunc)
         (path : list string) : M PerNodeFunc (T context PerNodeFunc) :=
  match path with
  | [] => ret PerNodeFunc (Par n)
  | name :: rest =>
      bind PerNodeFunc (Child Apply fmtV ord ctx n name)
           (fun c =>
              match c with
              | Par d => walk Apply fmtV ord ctx d rest
              | Leaf _ _ =>
                  match rest with
                  | [] => ret PerNodeFunc c
                  | _ :: _ => fail PerNodeFunc (ErrOther "not a directory")
                  end
              end)
  end.

(** ** A small tree to run the code on

    [parent/dir1/{fileA, fileB, dir2/}], as in the comment on
    [PerNodeFunc], and a few functions. *)
Module Demo.

Inductive fn : Type := FnView | FnAlt | FnPair | FnBad.

Definition node : Type := T unit fn.

(** A directory whose lookup and listing agree on [children]. *)
Definition mkDir (info : FileInfo) (children : list node) : Parent unit fn :=
  Dir info None
      (fun _ name =>
         match find (named name) children with
         | Some c => Ok c
         | None => Err (ErrNotExist name)
         end)
      children None.

Definition fileA : node := Leaf (mkFileInfo "fileA" 3 420 1700 0) None.
Definition fileB : node := Leaf (mkFileInfo "fileB" 5 0 1800 0) (Some 60).
Definition dir2 : Parent unit fn :=
  mkDir (mkFileInfo "dir2" 0 (Z.lor ModeDir 493) 1900 0) [].
Definition dir1 : Parent unit fn :=
  mkDir (mkFileInfo "dir1" 0 (Z.lor ModeDir 493) 2000 0)
        [fileA; fileB; Par dir2].
Definition parent : Parent unit fn :=
  mkDir (mkFileInfo "parent" 0 (Z.lor ModeDir 493) 2100 0) [Par dir1].

(** A directory that has an entry called [...] of its own. *)
Definition dots : node := Leaf (mkFileInfo "..." 1 420 1 0) None.
Definition shadowing : Parent unit fn :=
  mkDir (mkFileInfo "s" 0 (Z.lor ModeDir 493) 2 0) [dots; fileA].

Definition viewX : node := Leaf (mkFileInfo "x" 7 420 0 0) None.
Definition altX : node := Leaf (mkFileInfo "x" 9 420 0 0) None.
Definition viewY : node := Leaf (mkFileInfo "y" 1 420 0 0) None.

(** [FnView] and [FnAlt] each add a node called [x] to every entry,
    [FnPair] adds two nodes, [FnBad] fails. *)
Definition apply (f : fn) (_ : unit) (n : node) : result (list node) :=
  match f with
  | FnView => Ok [viewX]
  | FnAlt => Ok [altX]
  | FnPair => Ok [viewX; viewY]
  | FnBad => Err (ErrOther "boom")
  end.

(** Two orders in which a [range] may visit the map. *)
Definition inOrder (l : list (string * node)) : list (string * node) := l.
Definition reversed (l : list (string * node)) : list (string * node) :=
  rev l.

Definition fmt (f : fn) : string :=
  match f with
  | FnView => "view"
  | FnAlt => "alt"
  | FnPair => "pair"
  | FnBad => "bad"
  end.

End Demo.

(** ** The tree of the scenario, with functions that look at the entry

    [FnView] adds [x] to [fileA] only, [FnAlt] adds [x] and [y] to every
    entry, [FnPair] adds nothing, [FnBad] fails on directories. *)
Module Scenario.

Definition apply (f : Demo.fn) (_ : unit) (n : Demo.node)
  : result (list Demo.node) :=
  match f with
  | Demo.FnView => if named "fileA" n then Ok [Demo.viewX] else Ok []
  | Demo.FnAlt => Ok [Demo.altX; Demo.viewY]
  | Demo.FnPair => Ok []
  | Demo.FnBad =>
      match n with
      | Leaf _ _ => Ok []
      | Par _ => Err (ErrOther "is a directory")
      end
  end.

End Scenario.

(** * Properties *)

Section Properties.

Context {context PerNodeFunc : Type}.
Variable Apply : PerNodeFunc -> context -> T context PerNodeFunc
                 -> result (list (T context PerNodeFunc)).
Variable fmtV : PerNodeFunc -> string.
Variable ord : list (string * T context PerNodeFunc)
               -> list (string * T context PerNodeFunc).

Implicit Types (P : Parent context PerNodeFunc) (F : list PerNodeFunc).
Implicit Types (ctx : context) (e : T context PerNodeFunc).
Implicit Types (m : gmap string (T context PerNodeFunc)).
Implicit Types (l : list (T context PerNodeFunc)).

(** The recursion driver, case by case. *)
Lemma perNodeRecurse_leaf info cacheable F :
  perNodeRecurse (Leaf info cacheable : T context PerNodeFunc) F
  = Leaf info cacheable.
Proof. reflexivity. Qed.

Lemma perNodeRecurse_parent P F :
  perNodeRecurse (Par P) F = Par (ApplyPerNodeFuncs P F).
Proof. reflexivity. Qed.

Lemma perNodeRecurse_Info e F : Info (perNodeRecurse e F) = Info e.
Proof. destruct e; reflexivity. Qed.

(** Mapping with a function that cannot fail keeps the iterator's
    length and failure. *)
Lemma mapItems_Ok (g : T context PerNodeFunc -> T context PerNodeFunc)
      items err :
  mapItems (fun child => Ok (g child)) items err = (map g items, err).
Proof.
  induction items as [ | n rest IH]; [reflexivity |].
  cbn [mapItems map]. now rewrite IH.
Qed.

Lemma Children_perNodeImpl ctx P F (a : Parent context PerNodeFunc) :
  Children Apply fmtV ord ctx (perNodeImpl P F a)
  = (fst (Children Apply fmtV ord ctx P),
     (Par a :: map (fun child => perNodeRecurse child F)
                   (fst (snd (Children Apply fmtV ord ctx P))),
      snd (snd (Children Apply fmtV ord ctx P)))).
Proof.
  cbn [Children].
  destruct (Children Apply fmtV ord ctx P) as [tr [items err]].
  cbn [MapIterator NewIterator NewConcatIterator fst snd].
  rewrite mapItems_Ok. reflexivity.
Qed.

(** C1: asking the overlay wrapper for the child called [...] succeeds
    with the additions directory built for (P, F), and emits no event:
    neither P's lookup nor any function is consulted. *)
Theorem C1_child_reserved ctx P F :
  Child Apply fmtV ord ctx (ApplyPerNodeFuncs P F) addsDirName
  = ([], Ok (Par (perNodeAdds
                    (WithName (CopyFileInfo (InfoP P)) addsDirName) P F))).
Proof. reflexivity. Qed.

(** C2: for a name other than [...], the wrapper's lookup is the
    original's lookup with the same events, where a directory found comes
    back wrapped with the same functions, a leaf found comes back as it
    is, and a failure (NotFound or any other) comes back unchanged. *)
Theorem C2_child_other ctx P F name tr
        (r : result (T context PerNodeFunc)) :
  name <> addsDirName ->
  Child Apply fmtV ord ctx P name = (tr, r) ->
  Child Apply fmtV ord ctx (ApplyPerNodeFuncs P F) name
  = (tr, match r with
         | Ok (Par d) => Ok (Par (ApplyPerNodeFuncs d F))
         | Ok (Leaf info cacheable) => Ok (Leaf info cacheable)
         | Err err => Err err
         end).
Proof.
  intros Hname Horig. cbn [ApplyPerNodeFuncs Child].
  destruct (String.eqb_spec name addsDirName) as [Heq | _]; [contradiction |].
  rewrite Horig. destruct r as [[info cacheable | d] | err]; cbn.
  - now rewrite app_nil_r.
  - now rewrite app_nil_r.
  - reflexivity.
Qed.

(** C3: the listing of the wrapper is the additions directory built
    for (P, F), followed by the original's listing in which every
    directory comes back wrapped with the same functions and every leaf
    comes back as it is; it costs the events of the original's listing
    and ends with the original's failure, if any. *)
Theorem C3_children_of_wrap ctx P F :
  Children Apply fmtV ord ctx (ApplyPerNodeFuncs P F)
  = (fst (Children Apply fmtV ord ctx P),
     ([Par (perNodeAdds
              (WithName (CopyFileInfo (InfoP P)) addsDirName) P F)]
        ++ map (fun child =>
                  match child with
                  | Par d => Par (ApplyPerNodeFuncs d F)
                  | Leaf info cacheable => Leaf info cacheable
                  end)
               (fst (snd (Children Apply fmtV ord ctx P))),
      snd (snd (Children Apply fmtV ord ctx P)))).
Proof.
  unfold ApplyPerNodeFuncs at 1. rewrite Children_perNodeImpl.
  cbn [app]. erewrite map_ext; [reflexivity |].
  now intros [info cacheable | d].
Qed.





(** A wrapper is never the directory it wraps. *)
Lemma perNodeImpl_neq_original P F (a : Parent context PerNodeFunc) :
  perNodeImpl P F a <> P.
Proof.
  revert F a. induction P as [ | P' IH F' a' _ | | ]; intros F a H;
    try discriminate H.
  injection H as H _ _. exact (IH _ _ H).
Qed.

(** C9: wrapping twice is not wrapping once. The listing of
    wrap(wrap(P,F),F) starts with two different directories called
    [...]: the additions directory of the outer wrapper, and the inner
    wrapper's additions directory, wrapped again by the outer one. *)
Theorem C9_double_wrap ctx P F :
  let innerAdds :=
    perNodeAdds (WithName (CopyFileInfo (InfoP P)) addsDirName) P F in
  let inner := ApplyPerNodeFuncs P F in
  let outerAdds :=
    perNodeAdds (WithName (CopyFileInfo (InfoP inner)) addsDirName)
                inner F in
  let outer := ApplyPerNodeFuncs inner F in
  fst (snd (Children Apply fmtV ord ctx outer))
  = Par outerAdds
      :: Par (ApplyPerNodeFuncs innerAdds F)
      :: map (fun child => perNodeRecurse (perNodeRecurse child F) F)
             (fst (snd (Children Apply fmtV ord ctx P)))
  /\ Name (InfoP outerAdds) = addsDirName
  /\ Name (InfoP (ApplyPerNodeFuncs innerAdds F)) = addsDirName
  /\ outerAdds <> ApplyPerNodeFuncs innerAdds F
  /\ outer <> inner.
Proof.
  cbv zeta. repeat split.
  - unfold ApplyPerNodeFuncs. rewrite !Children_perNodeImpl.
    cbn [fst snd map perNodeRecurse ApplyPerNodeFuncs].
    rewrite map_map. reflexivity.
  - discriminate.
  - apply perNodeImpl_neq_original.
Qed.

(** C10: the wrapper answers [Info] and [CacheableFor] as the directory
    it wraps: same name, same permission bits, same modification time,
    same cache-validity duration. *)
Theorem C10_wrapper_metadata P F :
  InfoP (ApplyPerNodeFuncs P F) = InfoP P
  /\ Name (InfoP (ApplyPerNodeFuncs P F)) = Name (InfoP P)
  /\ Perm (Mode (InfoP (ApplyPerNodeFuncs P F))) = Perm (Mode (InfoP P))
  /\ ModTime (InfoP (ApplyPerNodeFuncs P F)) = ModTime (InfoP P)
  /\ CacheableForP (ApplyPerNodeFuncs P F) = CacheableForP P.
Proof. repeat split. Qed.

(** *** The accumulator *)

Lemma insertAdds_cons a l m :
  insertAdds (a :: l) m = insertAdds l (<[Name (Info a) := a]> m).
Proof. reflexivity. Qed.

Lemma insertAdds_app l1 l2 m :
  insertAdds (l1 ++ l2) m = insertAdds l2 (insertAdds l1 m).
Proof. apply fold_left_app. Qed.

Lemma insertAdds_lookup_other x l m :
  Forall (fun a => Name (Info a) <> x) l ->
  insertAdds l m !! x = m !! x.
Proof.
  intros H. revert m. induction H as [ | a l Ha _ IH]; intros m.
  - reflexivity.
  - rewrite insertAdds_cons, IH. now apply lookup_insert_ne.
Qed.

Lemma insertAdds_lookup_last x pre w post m :
  Name (Info w) = x ->
  Forall (fun a => Name (Info a) <> x) post ->
  insertAdds (pre ++ w :: post) m !! x = Some w.
Proof.
  intros Hw Hpost.
  rewrite insertAdds_app, insertAdds_cons, insertAdds_lookup_other by exact Hpost.
  rewrite Hw. apply lookup_insert_eq.
Qed.

Lemma insertAdds_lookup_mono x l m :
  is_Some (m !! x) -> is_Some (insertAdds l m !! x).
Proof.
  revert m. induction l as [ | a l IH]; intros m Hm; [exact Hm |].
  rewrite insertAdds_cons. apply IH.
  rewrite lookup_insert. case_decide; [eauto | exact Hm].
Qed.

Lemma insertAdds_lookup_Exists x l m :
  Exists (fun a => Name (Info a) = x) l -> is_Some (insertAdds l m !! x).
Proof.
  intros H. revert m. induction H as [a l Ha | a l _ IH]; intros m.
  - rewrite insertAdds_cons. apply insertAdds_lookup_mono.
    rewrite Ha, lookup_insert_eq. eauto.
  - rewrite insertAdds_cons. apply IH.
Qed.

Lemma keyed_by_name_empty :
  keyed_by_name (∅ : gmap string (T context PerNodeFunc)).
Proof. intros k v H. now rewrite lookup_empty in H. Qed.

Lemma keyed_by_name_insertAdds l m :
  keyed_by_name m -> keyed_by_name (insertAdds l m).
Proof.
  revert m. induction l as [ | a l IH]; intros m Hm; [exact Hm |].
  rewrite insertAdds_cons. apply IH. intros k v.
  rewrite lookup_insert. case_decide as Hk.
  - intros [= <-]. exact Hk.
  - apply Hm.
Qed.

(** *** The inner loop *)

Lemma appliedFuncs_app (t1 t2 : list (event PerNodeFunc)) :
  appliedFuncs (t1 ++ t2) = appliedFuncs t1 ++ appliedFuncs t2.
Proof. apply omap_app. Qed.

Lemma mergeAdds_spec entry l m :
  exists tr,
    mergeAdds entry l m = (tr, Ok (insertAdds l m))
    /\ appliedFuncs tr = []
    /\ forall x, is_Some (m !! x) ->
                 Exists (fun a => Name (Info a) = x) l ->
                 In (EvLogError (conflictMsg entry x)) tr.
Proof.
  revert m. induction l as [ | a l IH]; intros m.
  - exists []. repeat split. intros x _ H. inversion H.
  - destruct (IH (<[Name (Info a) := a]> m)) as (tr & Heq & Happ & Hlog).
    cbn [mergeAdds]. rewrite insertAdds_cons.
    destruct (m !! Name (Info a)) as [old | ] eqn:Hold; cbn; rewrite Heq.
    + eexists. split; [reflexivity |]. split; [exact Happ |].
      intros x Hx Hex. apply Exists_cons in Hex as [<- | Hex].
      * now left.
      * right. apply Hlog; [| exact Hex].
        rewrite lookup_insert. case_decide; eauto.
    + eexists. split; [reflexivity |]. split; [exact Happ |].
      intros x Hx Hex. apply Exists_cons in Hex as [<- | Hex].
      * rewrite Hold in Hx. now destruct Hx.
      * apply Hlog; [| exact Hex].
        rewrite lookup_insert. case_decide; eauto.
Qed.


(** *** The loop over the functions *)

Lemma runFuncs_cons_ok ctx e fn rest fnAdds m :
  Apply fn ctx e = Ok fnAdds ->
  exists tr,
    appliedFuncs tr = []
    /\ (forall x, is_Some (m !! x) ->
                  Exists (fun a => Name (Info a) = x) fnAdds ->
                  In (EvLogError (conflictMsg (Name (Info e)) x)) tr)
    /\ runFuncs Apply fmtV ctx e (fn :: rest) m
       = (EvApply fn (Name (Info e))
            :: tr ++ fst (runFuncs Apply fmtV ctx e rest (insertAdds fnAdds m)),
          snd (runFuncs Apply fmtV ctx e rest (insertAdds fnAdds m))).
Proof.
  intros Hfn.
  destruct (mergeAdds_spec (Name (Info e)) fnAdds m) as (tr & Heq & Happ & Hlog).
  exists tr. split; [exact Happ |]. split; [exact Hlog |].
  cbn [runFuncs bind tell]. rewrite Hfn, Heq. cbn [bind].
  destruct (runFuncs Apply fmtV ctx e rest (insertAdds fnAdds m)) as [tr' r].
  reflexivity.
Qed.

Lemma runFuncs_cons_err ctx e fn rest err m :
  Apply fn ctx e = Err err ->
  runFuncs Apply fmtV ctx e (fn :: rest) m
  = ([EvApply fn (Name (Info e))], Err (errRunningFunc fmtV fn err)).
Proof. intros Hfn. cbn [runFuncs bind tell]. now rewrite Hfn. Qed.

Lemma runFuncs_applied ctx e fns m :
  (exists rest,
      fns = appliedFuncs (fst (runFuncs Apply fmtV ctx e fns m)) ++ rest)
  /\ (forall m', snd (runFuncs Apply fmtV ctx e fns m) = Ok m' ->
                 appliedFuncs (fst (runFuncs Apply fmtV ctx e fns m)) = fns).
Proof.
  revert m. induction fns as [ | fn rest IH]; intros m.
  - split; [now exists [] | reflexivity].
  - destruct (Apply fn ctx e) as [fnAdds | err] eqn:Hfn.
    + destruct (runFuncs_cons_ok ctx e fn rest fnAdds m Hfn)
        as (tr & Happ & _ & ->).
      destruct (IH (insertAdds fnAdds m)) as [[rest' Hrest] Hok].
      cbn [fst snd]. change (EvApply fn (Name (Info e)) :: ?t)
        with ([EvApply fn (Name (Info e))] ++ t).
      rewrite !appliedFuncs_app, Happ. cbn. split.
      * exists rest'. now rewrite <- Hrest.
      * intros m' Hm'. now rewrite (Hok m' Hm').
    + rewrite (runFuncs_cons_err ctx e fn rest err m Hfn). cbn. split.
      * now exists rest.
      * discriminate.
Qed.

Lemma runFuncs_keyed ctx e fns m m' :
  keyed_by_name m ->
  snd (runFuncs Apply fmtV ctx e fns m) = Ok m' ->
  keyed_by_name m'.
Proof.
  revert m. induction fns as [ | fn rest IH]; intros m Hm.
  - cbn. now intros [= <-].
  - destruct (Apply fn ctx e) as [fnAdds | err] eqn:Hfn.
    + destruct (runFuncs_cons_ok ctx e fn rest fnAdds m Hfn)
        as (tr & _ & _ & ->).
      cbn [snd]. apply IH. now apply keyed_by_name_insertAdds.
    + rewrite (runFuncs_cons_err ctx e fn rest err m Hfn). discriminate.
Qed.

Lemma runFuncs_fails ctx e pre fn post err m :
  Forall (fun f => exists fnAdds, Apply f ctx e = Ok fnAdds) pre ->
  Apply fn ctx e = Err err ->
  exists tr,
    runFuncs Apply fmtV ctx e (pre ++ fn :: post) m
    = (tr, Err (errRunningFunc fmtV fn err))
    /\ appliedFuncs tr = pre ++ [fn].
Proof.
  intros Hpre Hfn. revert m.
  induction Hpre as [ | f pre [fnAdds Hf] _ IH]; intros m.
  - exists [EvApply fn (Name (Info e))]. split; [| reflexivity].
    now apply runFuncs_cons_err.
  - destruct (IH (insertAdds fnAdds m)) as (tr' & Hrun & Happ').
    destruct (runFuncs_cons_ok ctx e f (pre ++ fn :: post) fnAdds m Hf)
      as (tr & Happ & _ & Heq).
    cbn [app]. rewrite Heq, Hrun. cbn [fst snd].
    eexists. split; [reflexivity |].
    change (EvApply f (Name (Info e)) :: ?t)
      with ([EvApply f (Name (Info e))] ++ t).
    rewrite !appliedFuncs_app, Happ, Happ'. reflexivity.
Qed.

(** *** The listing of the accumulator *)

Lemma filter_none {A} (Q : A -> Prop) `{!forall a, Decision (Q a)}
      (l : list A) :
  Forall (fun a => ~ Q a) l -> filter Q l = [].
Proof.
  induction 1 as [ | a l Ha _ IH]; [reflexivity |].
  now rewrite filter_cons_False.
Qed.

Lemma listing_names_NoDup (o : list (string * T context PerNodeFunc)
                                -> list (string * T context PerNodeFunc))
      F m :
  valid_order o -> keyed_by_name m ->
  NoDup (map (fun c => Name (Info c))
             (map (fun kv => perNodeRecurse (snd kv) F)
                  (o (map_to_list m)))).
Proof.
  intros Hord Hm. rewrite map_map.
  rewrite (Permutation_map _ (Hord (map_to_list m))).
  erewrite map_ext_in.
  - apply (NoDup_fst_map_to_list m).
  - intros [k v] Hin. cbn. rewrite perNodeRecurse_Info.
    apply Hm. apply elem_of_map_to_list. now apply list_elem_of_In.
Qed.

Lemma listing_named (o : list (string * T context PerNodeFunc)
                          -> list (string * T context PerNodeFunc))
      F m x w :
  valid_order o -> keyed_by_name m -> m !! x = Some w ->
  filter (fun c => Name (Info c) = x)
         (map (fun kv => perNodeRecurse (snd kv) F) (o (map_to_list m)))
  = [perNodeRecurse w F].
Proof.
  intros Hord Hm Hx. apply Permutation_singleton_r.
  rewrite (Permutation_map _ (Hord (map_to_list m))).
  rewrite <- (Permutation_map _ (map_to_list_delete m x w Hx)).
  cbn [map snd]. rewrite filter_cons_True
    by (rewrite perNodeRecurse_Info; now apply (Hm x w)).
  rewrite filter_none; [reflexivity |].
  apply Forall_forall. intros c Hc.
  apply list_elem_of_In, in_map_iff in Hc as ([k v] & <- & Hin). cbn.
  rewrite perNodeRecurse_Info.
  apply list_elem_of_In, elem_of_map_to_list in Hin.
  rewrite lookup_delete in Hin. case_decide as Hk; [discriminate |].
  rewrite (Hm k v Hin). congruence.
Qed.


(** C4: when F1 and F2 both add a node called [x] to the entry, listing
    the per-entry additions directory succeeds; exactly one child is
    called [x], and it is the last [x] that F2 returned, as
    [perNodeRecurse] hands it on (the node itself when a leaf, wrapped
    when a directory, with the node's own metadata either way); the
    conflict goes to the log and is not an error. *)
Theorem C4_later_function_wins ctx e fn1 fn2 a1 pre w post x :
  valid_order ord ->
  Apply fn1 ctx e = Ok a1 ->
  Exists (fun a => Name (Info a) = x) a1 ->
  Apply fn2 ctx e = Ok (pre ++ w :: post) ->
  Name (Info w) = x ->
  Forall (fun a => Name (Info a) <> x) post ->
  exists tr l,
    Children Apply fmtV ord ctx (newAddsForChild [fn1; fn2] e)
    = (tr, (l, None))
    /\ addsChildren Apply fmtV ord ctx [fn1; fn2] e = (tr, Ok l)
    /\ filter (fun c => Name (Info c) = x) l = [perNodeRecurse w [fn1; fn2]]
    /\ match w with
       | Leaf _ _ => filter (fun c => Name (Info c) = x) l = [w]
       | Par d =>
           filter (fun c => Name (Info c) = x) l
           = [Par (ApplyPerNodeFuncs d [fn1; fn2])]
       end
    /\ Info (perNodeRecurse w [fn1; fn2]) = Info w
    /\ In (EvLogError (conflictMsg (Name (Info e)) x)) tr.
Proof.
  intros Hord H1 Hx1 H2 Hw Hpost.
  destruct (runFuncs_cons_ok ctx e fn1 [fn2] a1 ∅ H1) as (t1 & _ & _ & Hrun1).
  destruct (runFuncs_cons_ok ctx e fn2 [] (pre ++ w :: post)
                             (insertAdds a1 ∅) H2)
    as (t2 & _ & Hlog & Hrun2).
  set (m := insertAdds (pre ++ w :: post) (insertAdds a1 ∅)) in *.
  assert (Hadds : addsChildren Apply fmtV ord ctx [fn1; fn2] e
                  = (EvApply fn1 (Name (Info e))
                       :: t1 ++ EvApply fn2 (Name (Info e)) :: t2 ++ [],
                     Ok (map (fun kv => perNodeRecurse (snd kv) [fn1; fn2])
                             (ord (map_to_list m))))).
  { unfold addsChildren. rewrite Hrun1, Hrun2. cbn.
    now rewrite !app_nil_r. }
  assert (Hone : filter (fun c => Name (Info c) = x)
                        (map (fun kv => perNodeRecurse (snd kv) [fn1; fn2])
                             (ord (map_to_list m)))
                 = [perNodeRecurse w [fn1; fn2]]).
  { apply listing_named; [exact Hord | |].
    - apply keyed_by_name_insertAdds, keyed_by_name_insertAdds,
        keyed_by_name_empty.
    - now apply insertAdds_lookup_last. }
  do 2 eexists.
  split; [| split; [exact Hadds | split; [exact Hone | split; [| split]]]].
  - cbn [newAddsForChild Children]. now rewrite Hadds.
  - destruct w; exact Hone.
  - apply perNodeRecurse_Info.
  - right. apply in_or_app. right. right. apply in_or_app. left.
    apply Hlog.
    + now apply insertAdds_lookup_Exists.
    + apply Exists_app. right. now left.
Qed.

(** What [fmt.Errorf] keeps: strings joined end to end can be taken
    apart again. *)
Lemma string_length_append (a b : string) :
  String.length (a +:+ b) = (String.length a + String.length b)%nat.
Proof.
  induction a as [ | ch a IH]; [reflexivity |].
  change (S (String.length (a +:+ b))
          = S (String.length a + String.length b)).
  now rewrite IH.
Qed.

Lemma string_append_inj_l (s a b : string) : s +:+ a = s +:+ b -> a = b.
Proof.
  induction s as [ | ch s IH]; cbn; [easy |].
  intros H. injection H as H. now apply IH.
Qed.

Lemma string_append_inj_r (t a b : string) : a +:+ t = b +:+ t -> a = b.
Proof.
  revert b. induction a as [ | ch a IH]; intros [ | ch' b] H.
  - reflexivity.
  - apply (f_equal String.length) in H.
    rewrite !string_length_append in H. cbn in H. lia.
  - apply (f_equal String.length) in H.
    rewrite !string_length_append in H. cbn in H. lia.
  - cbn in H. injection H as -> H. f_equal. now apply IH.
Qed.

Lemma errRunningFunc_reads_back (fn fn' : PerNodeFunc) (err err' : error) :
  errRunningFunc fmtV fn' err' = errRunningFunc fmtV fn err ->
  err' = err /\ fmtV fn' = fmtV fn.
Proof.
  unfold errRunningFunc. intros H. injection H as Hmsg ->.
  split; [reflexivity |].
  apply string_append_inj_l in Hmsg.
  now apply string_append_inj_r in Hmsg.
Qed.

(** C5, as the code has it: when a function fails on the entry, the
    computation stops there (the functions applied are those up to the
    failing one), returns no children, and fails with the function's
    error wrapped behind the message [addfs: error running func],
    the function as [%v] prints it, and the error's text; the listing of
    the per-entry directory yields nothing and ends with that failure.
    The function's printed form and its error can be read back from the
    failure. The wrapper puts nothing of the entry into it: the same
    function failing with the same error surfaces the same failure on
    any entry, whatever the functions around it. *)
Theorem C5_failure_aborts ctx e pre fn post err :
  Forall (fun f => exists fnAdds, Apply f ctx e = Ok fnAdds) pre ->
  Apply fn ctx e = Err err ->
  exists tr,
    addsChildren Apply fmtV ord ctx (pre ++ fn :: post) e
    = (tr, Err (errRunningFunc fmtV fn err))
    /\ appliedFuncs tr = pre ++ [fn]
    /\ Children Apply fmtV ord ctx (newAddsForChild (pre ++ fn :: post) e)
       = (tr, ([], Some (errRunningFunc fmtV fn err)))
    /\ Unwrap (errRunningFunc fmtV fn err) = Some err
    /\ ErrorString (errRunningFunc fmtV fn err)
       = "addfs: error running func " +:+ fmtV fn +:+ ": "
         +:+ ErrorString err
    /\ (forall fn' err',
           errRunningFunc fmtV fn' err' = errRunningFunc fmtV fn err ->
           err' = err /\ fmtV fn' = fmtV fn)
    /\ (forall e' pre' post',
           Forall (fun f => exists fnAdds, Apply f ctx e' = Ok fnAdds) pre' ->
           Apply fn ctx e' = Err err ->
           snd (addsChildren Apply fmtV ord ctx (pre' ++ fn :: post') e')
           = snd (addsChildren Apply fmtV ord ctx (pre ++ fn :: post) e)).
Proof.
  intros Hpre Hfn.
  assert (Hany : forall e' pre' post',
             Forall (fun f => exists fnAdds, Apply f ctx e' = Ok fnAdds) pre' ->
             Apply fn ctx e' = Err err ->
             exists tr,
               addsChildren Apply fmtV ord ctx (pre' ++ fn :: post') e'
               = (tr, Err (errRunningFunc fmtV fn err))
               /\ appliedFuncs tr = pre' ++ [fn]).
  { intros e' pre' post' Hpre' Hfn'.
    destruct (runFuncs_fails ctx e' pre' fn post' err ∅ Hpre' Hfn')
      as (tr & Hrun & Happ).
    exists tr. split; [| exact Happ].
    unfold addsChildren. now rewrite Hrun. }
  destruct (Hany e pre post Hpre Hfn) as (tr & Hadds & Happ).
  exists tr.
  split; [exact Hadds |]. split; [exact Happ |]. split.
  { cbn [newAddsForChild Children]. now rewrite Hadds. }
  split; [reflexivity |]. split; [reflexivity |]. split.
  { intros fn' err'. apply errRunningFunc_reads_back. }
  intros e' pre' post' Hpre' Hfn'.
  destruct (Hany e' pre' post' Hpre' Hfn') as (tr' & Hadds' & _).
  now rewrite Hadds, Hadds'.
Qed.

(** C8, as the code has it: the accumulator is a Go map keyed by
    addition name and the functions run in list order, so two runs of
    the per-entry computation emit the same events, both fail with the
    same failure or both succeed with the same children, one per name;
    the order in which the children come is that of the map's [range]
    and may differ between the runs. *)
Theorem C8_same_children_up_to_order ctx e F
        (ord1 ord2 : list (string * T context PerNodeFunc)
                     -> list (string * T context PerNodeFunc)) :
  valid_order ord1 -> valid_order ord2 ->
  fst (addsChildren Apply fmtV ord1 ctx F e)
  = fst (addsChildren Apply fmtV ord2 ctx F e)
  /\ (exists rest,
         F = appliedFuncs (fst (addsChildren Apply fmtV ord1 ctx F e))
               ++ rest)
  /\ match snd (addsChildren Apply fmtV ord1 ctx F e),
           snd (addsChildren Apply fmtV ord2 ctx F e) with
     | Ok l1, Ok l2 =>
         Permutation l1 l2
         /\ NoDup (map (fun c => Name (Info c)) l1)
         /\ appliedFuncs (fst (addsChildren Apply fmtV ord1 ctx F e)) = F
     | Err e1, Err e2 => e1 = e2
     | _, _ => False
     end.
Proof.
  intros H1 H2. unfold addsChildren.
  pose proof (runFuncs_applied ctx e F ∅) as [Hprefix Hall].
  pose proof (runFuncs_keyed ctx e F ∅) as Hkeyed.
  destruct (runFuncs Apply fmtV ctx e F ∅) as [tr [m | err]];
    cbn [bind ret fst snd] in *.
  - rewrite app_nil_r. repeat split.
    + exact Hprefix.
    + apply Permutation_map.
      now rewrite (H1 (map_to_list m)), (H2 (map_to_list m)).
    + apply listing_names_NoDup; [exact H1 |].
      apply (Hkeyed m); [apply keyed_by_name_empty | reflexivity].
    + now apply (Hall m).
  - repeat split. exact Hprefix.
Qed.

End Properties.

(** * The code on the small tree *)

Lemma valid_order_inOrder : valid_order Demo.inOrder.
Proof. intros l. reflexivity. Qed.

Lemma valid_order_reversed : valid_order Demo.reversed.
Proof. intros l. symmetry. apply Permutation_rev. Qed.

(** [parent/dir1] through the wrapper is [dir1], wrapped. *)
Lemma C2_child_other_witness :
  "dir1"%string <> addsDirName
  /\ Child Demo.apply Demo.fmt Demo.inOrder tt Demo.parent "dir1"
     = ([EvLookup "parent" "dir1"], Ok (Par Demo.dir1))
  /\ Child Demo.apply Demo.fmt Demo.inOrder tt
           (ApplyPerNodeFuncs Demo.parent [Demo.FnView]) "dir1"
     = ([EvLookup "parent" "dir1"],
        Ok (Par (ApplyPerNodeFuncs Demo.dir1 [Demo.FnView]))).
Proof.
  assert (Hname : "dir1"%string <> addsDirName) by discriminate.
  assert (Horig : Child Demo.apply Demo.fmt Demo.inOrder tt Demo.parent
                        "dir1"
                  = ([EvLookup "parent" "dir1"], Ok (Par Demo.dir1)))
    by reflexivity.
  split; [exact Hname |]. split; [exact Horig |].
  exact (C2_child_other Demo.apply Demo.fmt Demo.inOrder tt Demo.parent
                        [Demo.FnView] "dir1" _ _ Hname Horig).
Defined.

(** [FnView] and [FnAlt] both add [x] to [fileA]: [FnAlt]'s stays. *)
Lemma C4_later_function_wins_witness :
  exists tr l,
    Children Demo.apply Demo.fmt Demo.inOrder tt
             (newAddsForChild [Demo.FnView; Demo.FnAlt] Demo.fileA)
    = (tr, (l, None))
    /\ addsChildren Demo.apply Demo.fmt Demo.inOrder tt
                    [Demo.FnView; Demo.FnAlt] Demo.fileA
       = (tr, Ok l)
    /\ filter (fun c => Name (Info c) = "x"%string) l
       = [perNodeRecurse Demo.altX [Demo.FnView; Demo.FnAlt]]
    /\ filter (fun c => Name (Info c) = "x"%string) l = [Demo.altX]
    /\ Info (perNodeRecurse Demo.altX [Demo.FnView; Demo.FnAlt])
       = Info Demo.altX
    /\ In (EvLogError (conflictMsg (Name (Info Demo.fileA)) "x")) tr.
Proof.
  apply (C4_later_function_wins Demo.apply Demo.fmt Demo.inOrder tt
           Demo.fileA Demo.FnView Demo.FnAlt [Demo.viewX] [] Demo.altX []
           "x"%string).
  - exact valid_order_inOrder.
  - reflexivity.
  - left. reflexivity.
  - reflexivity.
  - reflexivity.
  - constructor.
Defined.

(** [FnBad] fails between [FnPair] and [FnView]: [FnView] is not run. *)
Lemma C5_failure_aborts_witness :
  exists tr,
    addsChildren Demo.apply Demo.fmt Demo.inOrder tt
                 ([Demo.FnPair] ++ Demo.FnBad :: [Demo.FnView]) Demo.fileA
    = (tr, Err (errRunningFunc Demo.fmt Demo.FnBad (ErrOther "boom")))
    /\ appliedFuncs tr = [Demo.FnPair] ++ [Demo.FnBad]
    /\ Children Demo.apply Demo.fmt Demo.inOrder tt
                (newAddsForChild
                   ([Demo.FnPair] ++ Demo.FnBad :: [Demo.FnView])
                   Demo.fileA)
       = (tr, ([], Some (errRunningFunc Demo.fmt Demo.FnBad
                                         (ErrOther "boom"))))
    /\ Unwrap (errRunningFunc Demo.fmt Demo.FnBad (ErrOther "boom"))
       = Some (ErrOther "boom")
    /\ ErrorString (errRunningFunc Demo.fmt Demo.FnBad (ErrOther "boom"))
       = ("addfs: error running func " +:+ Demo.fmt Demo.FnBad +:+ ": "
          +:+ ErrorString (ErrOther "boom"))
    /\ (forall fn' err',
           errRunningFunc Demo.fmt fn' err'
           = errRunningFunc Demo.fmt Demo.FnBad (ErrOther "boom") ->
           err' = ErrOther "boom" /\ Demo.fmt fn' = Demo.fmt Demo.FnBad)
    /\ (forall e' pre' post',
           Forall (fun f => exists fnAdds, Demo.apply f tt e' = Ok fnAdds)
                  pre' ->
           Demo.apply Demo.FnBad tt e' = Err (ErrOther "boom") ->
           snd (addsChildren Demo.apply Demo.fmt Demo.inOrder tt
                             (pre' ++ Demo.FnBad :: post') e')
           = snd (addsChildren Demo.apply Demo.fmt Demo.inOrder tt
                               ([Demo.FnPair] ++ Demo.FnBad :: [Demo.FnView])
                               Demo.fileA)).
Proof.
  apply (C5_failure_aborts Demo.apply Demo.fmt Demo.inOrder tt Demo.fileA
           [Demo.FnPair] Demo.FnBad [Demo.FnView] (ErrOther "boom")).
  - constructor; [| constructor]. exists [Demo.viewX; Demo.viewY].
    reflexivity.
  - reflexivity.
Defined.

(** The failure that surfaces is the same for [fileA] and for [fileB]:
    no function of the failure gives back the entry. *)
Lemma C5_failure_omits_entry :
  ~ exists entryOf : error -> string,
      forall (e : Demo.node) (err : error),
        snd (addsChildren Demo.apply Demo.fmt Demo.inOrder tt
                          [Demo.FnBad] e) = Err err ->
        entryOf err = Name (Info e).
Proof.
  intros [entryOf H].
  pose proof (H Demo.fileA _ eq_refl) as HA.
  pose proof (H Demo.fileB _ eq_refl) as HB.
  cbn in HA, HB. rewrite HA in HB. discriminate HB.
Qed.

(** C6: a directory with an entry of its own called [...]. Lookup of
    [...] on the wrapper gives the additions directory, but the
    wrapper's listing yields the original entry as well, after the
    additions directory: the listing does not filter it out. *)
Example C6_listing_keeps_original_dots :
  snd (Child Demo.apply Demo.fmt Demo.inOrder tt
             (ApplyPerNodeFuncs Demo.shadowing [Demo.FnView]) addsDirName)
  = Ok (Par (perNodeAdds
               (WithName (CopyFileInfo (InfoP Demo.shadowing)) addsDirName)
               Demo.shadowing [Demo.FnView]))
  /\ snd (Children Demo.apply Demo.fmt Demo.inOrder tt
                   (ApplyPerNodeFuncs Demo.shadowing [Demo.FnView]))
     = ([Par (perNodeAdds
                (WithName (CopyFileInfo (InfoP Demo.shadowing)) addsDirName)
                Demo.shadowing [Demo.FnView]);
         Demo.dots; Demo.fileA], None)
  /\ Name (Info Demo.dots) = addsDirName
  /\ Demo.dots
     <> Par (perNodeAdds
               (WithName (CopyFileInfo (InfoP Demo.shadowing)) addsDirName)
               Demo.shadowing [Demo.FnView]).
Proof. repeat split. discriminate. Qed.

(** Two runs on [fileA] with [FnPair], the map visited in two orders. *)
Lemma C8_same_children_up_to_order_witness :
  fst (addsChildren Demo.apply Demo.fmt Demo.inOrder tt
                    [Demo.FnPair] Demo.fileA)
  = fst (addsChildren Demo.apply Demo.fmt Demo.reversed tt
                      [Demo.FnPair] Demo.fileA)
  /\ (exists rest,
         [Demo.FnPair]
         = appliedFuncs (fst (addsChildren Demo.apply Demo.fmt Demo.inOrder
                                           tt [Demo.FnPair] Demo.fileA))
             ++ rest)
  /\ match snd (addsChildren Demo.apply Demo.fmt Demo.inOrder tt
                             [Demo.FnPair] Demo.fileA),
           snd (addsChildren Demo.apply Demo.fmt Demo.reversed tt
                             [Demo.FnPair] Demo.fileA) with
     | Ok l1, Ok l2 =>
         Permutation l1 l2
         /\ NoDup (map (fun c => Name (Info c)) l1)
         /\ appliedFuncs (fst (addsChildren Demo.apply Demo.fmt
                                            Demo.inOrder tt [Demo.FnPair]
                                            Demo.fileA))
            = [Demo.FnPair]
     | Err e1, Err e2 => e1 = e2
     | _, _ => False
     end.
Proof.
  exact (C8_same_children_up_to_order Demo.apply Demo.fmt tt Demo.fileA
           [Demo.FnPair] Demo.inOrder Demo.reversed
           valid_order_inOrder valid_order_reversed).
Defined.

(** The same two runs list the two additions in opposite orders. *)
Lemma C8_order_differs :
  valid_order Demo.inOrder
  /\ valid_order Demo.reversed
  /\ snd (addsChildren Demo.apply Demo.fmt Demo.inOrder tt
                       [Demo.FnPair] Demo.fileA)
     = Ok [Demo.viewY; Demo.viewX]
  /\ snd (addsChildren Demo.apply Demo.fmt Demo.reversed tt
                       [Demo.FnPair] Demo.fileA)
     = Ok [Demo.viewX; Demo.viewY]
  /\ snd (addsChildren Demo.apply Demo.fmt Demo.inOrder tt
                       [Demo.FnPair] Demo.fileA)
     <> snd (addsChildren Demo.apply Demo.fmt Demo.reversed tt
                          [Demo.FnPair] Demo.fileA).
Proof.
  split; [exact valid_order_inOrder |].
  split; [exact valid_order_reversed |].
  split; [vm_compute; reflexivity |].
  split; [vm_compute; reflexivity |].
  vm_compute. discriminate.
Qed.

(** * Further properties of the two directories *)

Section Browsing.

Context {context PerNodeFunc : Type}.
Variable Apply : PerNodeFunc -> context -> T context PerNodeFunc
                 -> result (list (T context PerNodeFunc)).
Variable fmtV : PerNodeFunc -> string.
Variable ord : list (string * T context PerNodeFunc)
               -> list (string * T context PerNodeFunc).

Implicit Types (P D : Parent context PerNodeFunc) (F : list PerNodeFunc).
Implicit Types (ctx : context) (e c : T context PerNodeFunc).

(** Binding a computation to a step that cannot fail and emits nothing. *)
Lemma bind_ret_map {A B : Type} (mA : M PerNodeFunc A) (g : A -> B) :
  bind PerNodeFunc mA (fun a => ret PerNodeFunc (g a))
  = (fst mA, match snd mA with Ok a => Ok (g a) | Err err => Err err end).
Proof.
  destruct mA as [tr [a | err]]; cbn; [| reflexivity].
  now rewrite app_nil_r.
Qed.

Lemma Child_perNodeImpl_other ctx P F (a : Parent context PerNodeFunc) name :
  name <> addsDirName ->
  Child Apply fmtV ord ctx (perNodeImpl P F a) name
  = (fst (Child Apply fmtV ord ctx P name),
     match snd (Child Apply fmtV ord ctx P name) with
     | Ok c => Ok (perNodeRecurse c F)
     | Err err => Err err
     end).
Proof.
  intros Hname. cbn [Child].
  destruct (String.eqb_spec name addsDirName) as [Heq | _]; [contradiction |].
  apply bind_ret_map.
Qed.

Lemma Child_perNodeAdds ctx info P F name :
  Child Apply fmtV ord ctx (perNodeAdds info P F) name
  = (fst (Child Apply fmtV ord ctx P name),
     match snd (Child Apply fmtV ord ctx P name) with
     | Ok c => Ok (Par (newAddsForChild F c))
     | Err err => Err err
     end).
Proof. cbn [Child]. apply bind_ret_map. Qed.

Lemma Children_perNodeAdds ctx info P F :
  Children Apply fmtV ord ctx (perNodeAdds info P F)
  = (fst (Children Apply fmtV ord ctx P),
     (map (fun child => Par (newAddsForChild F child))
          (fst (snd (Children Apply fmtV ord ctx P))),
      snd (snd (Children Apply fmtV ord ctx P)))).
Proof.
  cbn [Children].
  destruct (Children Apply fmtV ord ctx P) as [tr [items err]].
  cbn [MapIterator fst snd].
  now rewrite (mapItems_Ok (fun child => Par (newAddsForChild F child))).
Qed.



(** X1: lookup in the additions directory is the original's lookup, with
    the same events: an entry found, leaf or directory, comes back as
    its per-entry directory, carrying the entry's name; a failure comes
    back unchanged. The name [...] gets no special treatment here. *)
Theorem adds_child_delegates ctx info P F name tr
        (r : result (T context PerNodeFunc)) :
  Child Apply fmtV ord ctx P name = (tr, r) ->
  Child Apply fmtV ord ctx (perNodeAdds info P F) name
  = (tr, match r with
         | Ok e => Ok (Par (newAddsForChild F e))
         | Err err => Err err
         end)
  /\ match r with
     | Ok e => Name (InfoP (newAddsForChild F e)) = Name (Info e)
     | Err _ => True
     end.
Proof.
  intros Horig. rewrite Child_perNodeAdds, Horig. split; [reflexivity |].
  now destruct r.
Qed.


(** X3: the listing of the wrapper has one more node than the
    original's, never none: the names are [...] followed by the names
    the original lists, in the same order, and each listed child is a
    directory exactly when the original's is. *)
Theorem wrapper_children_names ctx P F :
  map (fun c => Name (Info c))
      (fst (snd (Children Apply fmtV ord ctx (ApplyPerNodeFuncs P F))))
  = addsDirName
      :: map (fun c => Name (Info c))
             (fst (snd (Children Apply fmtV ord ctx P)))
  /\ length (fst (snd (Children Apply fmtV ord ctx (ApplyPerNodeFuncs P F))))
     = S (length (fst (snd (Children Apply fmtV ord ctx P))))
  /\ map (fun c => match c with Par _ => true | Leaf _ _ => false end)
         (fst (snd (Children Apply fmtV ord ctx (ApplyPerNodeFuncs P F))))
     = true
         :: map (fun c => match c with Par _ => true | Leaf _ _ => false end)
                (fst (snd (Children Apply fmtV ord ctx P))).
Proof.
  unfold ApplyPerNodeFuncs. rewrite Children_perNodeImpl. cbn [fst snd].
  repeat split.
  - cbn [map Info InfoP WithName Name]. f_equal. rewrite map_map.
    apply map_ext. intros c. now rewrite perNodeRecurse_Info.
  - cbn [length]. now rewrite length_map.
  - cbn [map]. f_equal. rewrite map_map. apply map_ext.
    now intros [info cacheable | d].
Qed.

(** X4: when the original finds by name every child it lists, and lists
    no child called [...], the wrapper finds by name every node it
    lists. *)
Theorem wrapper_lookup_agrees_with_listing ctx P F c :
  (forall c0, In c0 (fst (snd (Children Apply fmtV ord ctx P))) ->
              snd (Child Apply fmtV ord ctx P (Name (Info c0))) = Ok c0) ->
  Forall (fun c0 => Name (Info c0) <> addsDirName)
         (fst (snd (Children Apply fmtV ord ctx P))) ->
  In c (fst (snd (Children Apply fmtV ord ctx (ApplyPerNodeFuncs P F)))) ->
  snd (Child Apply fmtV ord ctx (ApplyPerNodeFuncs P F) (Name (Info c)))
  = Ok c.
Proof.
  intros Hfound Hnames. unfold ApplyPerNodeFuncs at 1.
  rewrite Children_perNodeImpl. cbn [fst snd].
  intros [<- | Hin].
  - reflexivity.
  - apply in_map_iff in Hin as (c0 & <- & Hin0).
    rewrite perNodeRecurse_Info. unfold ApplyPerNodeFuncs.
    rewrite Child_perNodeImpl_other.
    + cbn [snd]. now rewrite (Hfound c0 Hin0).
    + rewrite Forall_forall in Hnames. apply Hnames.
      now apply list_elem_of_In.
Qed.

(** X5: when the original finds by name every child it lists, the
    additions directory finds by name every per-entry directory it
    lists. *)
Theorem adds_lookup_agrees_with_listing ctx info P F d :
  (forall c0, In c0 (fst (snd (Children Apply fmtV ord ctx P))) ->
              snd (Child Apply fmtV ord ctx P (Name (Info c0))) = Ok c0) ->
  In d (fst (snd (Children Apply fmtV ord ctx (perNodeAdds info P F)))) ->
  snd (Child Apply fmtV ord ctx (perNodeAdds info P F) (Name (Info d)))
  = Ok d.
Proof.
  intros Hfound. rewrite Children_perNodeAdds. cbn [fst snd].
  intros Hin. apply in_map_iff in Hin as (c0 & <- & Hin0).
  rewrite Child_perNodeAdds. cbn [snd Info newAddsForChild InfoP
    WithCacheableFor WithModePerm WithModTime NewDirInfo Name].
  now rewrite (Hfound c0 Hin0).
Qed.

(** Events of the calls made below a parent that stands over a
    directory of the caller. *)
Lemma appliedFuncs_nil_app (t1 t2 : list (event PerNodeFunc)) :
  appliedFuncs t1 = [] -> appliedFuncs t2 = [] -> appliedFuncs (t1 ++ t2) = [].
Proof. intros H1 H2. unfold appliedFuncs in *. now rewrite omap_app, H1, H2. Qed.

Lemma loggedLines_app (t1 t2 : list (event PerNodeFunc)) :
  loggedLines (t1 ++ t2) = loggedLines t1 ++ loggedLines t2.
Proof. apply omap_app. Qed.

(** X6: browsing does not run the functions. On a wrapper or an
    additions directory that stands over a directory of the caller,
    neither a lookup nor a listing applies a function or logs a line. *)
Theorem browsing_applies_no_function ctx P name :
  overOriginal P = true ->
  appliedFuncs (fst (Child Apply fmtV ord ctx P name)) = []
  /\ loggedLines (fst (Child Apply fmtV ord ctx P name)) = []
  /\ appliedFuncs (fst (Children Apply fmtV ord ctx P)) = []
  /\ loggedLines (fst (Children Apply fmtV ord ctx P)) = [].
Proof.
  induction P as [info cacheable child children childrenErr
                 | P' IH F a _ | info P' IH F | info e F];
    intros Hover; cbn [overOriginal] in Hover.
  - cbn [Child Children fst]. unfold bind, tell, lift.
    destruct (child ctx name); repeat split.
  - specialize (IH Hover) as (IH1 & IH2 & IH3 & IH4).
    rewrite Children_perNodeImpl. cbn [fst].
    destruct (String.eqb_spec name addsDirName) as [-> | Hname].
    + repeat split; assumption.
    + rewrite Child_perNodeImpl_other by exact Hname.
      repeat split; assumption.
  - specialize (IH Hover) as (IH1 & IH2 & IH3 & IH4).
    rewrite Children_perNodeAdds, Child_perNodeAdds. cbn [fst].
    repeat split; assumption.
  - discriminate Hover.
Qed.

(** One step of a walk. *)
Lemma walk_cons ctx P name rest :
  walk Apply fmtV ord ctx P (name :: rest)
  = bind PerNodeFunc (Child Apply fmtV ord ctx P name)
         (fun c =>
            match c with
            | Par d => walk Apply fmtV ord ctx d rest
            | Leaf _ _ =>
                match rest with
                | [] => ret PerNodeFunc c
                | _ :: _ => fail PerNodeFunc (ErrOther "not a directory")
                end
            end).
Proof. reflexivity. Qed.

(** X7: the wrapper mirrors the original at every depth. A path with no
    component [...] resolves through the wrapper as through the original,
    with the same events, to the original's node sent through
    [perNodeRecurse], or to the original's failure. *)
Theorem walk_mirrors_original ctx P F path :
  Forall (fun name => name <> addsDirName) path ->
  walk Apply fmtV ord ctx (ApplyPerNodeFuncs P F) path
  = (fst (walk Apply fmtV ord ctx P path),
     match snd (walk Apply fmtV ord ctx P path) with
     | Ok n => Ok (perNodeRecurse n F)
     | Err err => Err err
     end).
Proof.
  intros Hpath. revert P.
  induction Hpath as [ | name rest Hname _ IH]; intros P.
  - reflexivity.
  - rewrite !walk_cons. unfold ApplyPerNodeFuncs at 1.
    rewrite Child_perNodeImpl_other by exact Hname.
    destruct (Child Apply fmtV ord ctx P name) as [tr [[i k | d] | err]];
      cbn [fst snd bind perNodeRecurse].
    + destruct rest; reflexivity.
    + rewrite IH.
      destruct (walk Apply fmtV ord ctx d rest) as [tr' r]. reflexivity.
    + reflexivity.
Qed.

(** A walk into the additions directory of a wrapper, then to an entry. *)
Lemma walk_into_adds ctx D F name tr (e : T context PerNodeFunc) :
  Child Apply fmtV ord ctx D name = (tr, Ok e) ->
  walk Apply fmtV ord ctx (ApplyPerNodeFuncs D F) [addsDirName; name]
  = (tr, Ok (Par (newAddsForChild F e))).
Proof.
  intros HD. rewrite walk_cons. cbn [ApplyPerNodeFuncs Child].
  change (String.eqb addsDirName addsDirName) with true. cbn [ret bind].
  rewrite walk_cons, Child_perNodeAdds, HD. cbn [fst snd bind walk ret].
  now rewrite app_nil_r.
Qed.

(** X8: additions live one [...] to the side of their entry: if a path
    with no component [...] leads the original to a directory D, and D
    has an entry under [name], then the same path followed by [...] and
    [name] leads the wrapper to that entry's per-entry directory, with
    the events of the two original lookups and no function applied. *)
Theorem walk_reaches_additions ctx P F path D name tr1 tr2
        (e : T context PerNodeFunc) :
  Forall (fun component => component <> addsDirName) path ->
  walk Apply fmtV ord ctx P path = (tr1, Ok (Par D)) ->
  Child Apply fmtV ord ctx D name = (tr2, Ok e) ->
  walk Apply fmtV ord ctx (ApplyPerNodeFuncs P F)
       (path ++ [addsDirName; name])
  = (tr1 ++ tr2, Ok (Par (newAddsForChild F e))).
Proof.
  intros Hpath. revert P tr1.
  induction Hpath as [ | component rest Hname _ IH]; intros P tr1 HP HD.
  - cbn in HP. injection HP as <- <-.
    now apply walk_into_adds.
  - rewrite walk_cons in HP. cbn [app]. rewrite walk_cons.
    unfold ApplyPerNodeFuncs at 1.
    rewrite Child_perNodeImpl_other by exact Hname.
    destruct (Child Apply fmtV ord ctx P component)
      as [tr [[i k | d] | err]]; cbn [fst snd bind perNodeRecurse] in *.
    + destruct rest; discriminate HP.
    + destruct (walk Apply fmtV ord ctx d rest) as [tr' r] eqn:Hd.
      injection HP as <- ->.
      rewrite (IH d tr' Hd HD). now rewrite app_assoc.
    + discriminate HP.
Qed.

End Browsing.

(** * Further properties of the per-entry computation *)

Section Additions.

Context {context PerNodeFunc : Type}.
Variable Apply : PerNodeFunc -> context -> T context PerNodeFunc
                 -> result (list (T context PerNodeFunc)).
Variable fmtV : PerNodeFunc -> string.
Variable ord : list (string * T context PerNodeFunc)
               -> list (string * T context PerNodeFunc).

Implicit Types (F fns : list PerNodeFunc) (ctx : context).
Implicit Types (e w c : T context PerNodeFunc).
Implicit Types (m : gmap string (T context PerNodeFunc)).
Implicit Types (l : list (T context PerNodeFunc)).
Implicit Types (outs : list (list (T context PerNodeFunc))).

(** *** The inner loop, line by line of the log *)

Lemma name_in_names l (b : T context PerNodeFunc) :
  b ∈ l -> Name (Info b) ∈ map (fun a => Name (Info a)) l.
Proof.
  intros Hb. apply list_elem_of_In.
  apply (in_map (fun a => Name (Info a))). now apply list_elem_of_In.
Qed.

Lemma mergeAdds_cons_fst entry a l m :
  fst (mergeAdds entry (a :: l) m)
  = match m !! Name (Info a) with
    | Some _ => [EvLogError (conflictMsg entry (Name (Info a)))]
    | None => []
    end ++ fst (mergeAdds entry l (<[Name (Info a) := a]> m)).
Proof.
  cbn [mergeAdds].
  destruct (mergeAdds_spec entry l (<[Name (Info a) := a]> m))
    as (tr & Heq & _).
  rewrite Heq. now destruct (m !! Name (Info a)).
Qed.

Lemma mergeAdds_fresh entry l m :
  NoDup (map (fun a => Name (Info a)) l) ->
  Forall (fun a => m !! Name (Info a) = None) l ->
  fst (mergeAdds entry l m) = [].
Proof.
  revert m. induction l as [ | a l IH]; intros m Hnd Hfresh.
  - reflexivity.
  - cbn [map] in Hnd. apply NoDup_cons in Hnd as [Ha Hnd].
    apply Forall_cons in Hfresh as [Hma Hfresh].
    rewrite mergeAdds_cons_fst, Hma. cbn [app]. apply IH; [exact Hnd |].
    rewrite Forall_forall in Hfresh |- *. intros b Hb.
    rewrite lookup_insert_ne; [now apply Hfresh |].
    intros Heq. apply Ha. rewrite Heq. now apply name_in_names.
Qed.

Lemma mergeAdds_count entry l m :
  (length (loggedLines (fst (mergeAdds entry l m)))
   + size (insertAdds l m) = size m + length l)%nat.
Proof.
  revert m. induction l as [ | a l IH]; intros m.
  - cbn. lia.
  - rewrite mergeAdds_cons_fst, insertAdds_cons.
    specialize (IH (<[Name (Info a) := a]> m)).
    unfold loggedLines in *. rewrite omap_app, length_app.
    destruct (m !! Name (Info a)) as [old | ] eqn:Hold; cbn [omap length].
    + rewrite map_size_insert_Some in IH by (rewrite Hold; eauto).
      cbn. lia.
    + rewrite map_size_insert_None in IH by exact Hold. cbn. lia.
Qed.

Lemma insertAdds_lookup_In l m k w :
  insertAdds l m !! k = Some w -> In w l \/ m !! k = Some w.
Proof.
  revert m. induction l as [ | a l IH]; intros m H; [now right |].
  rewrite insertAdds_cons in H. destruct (IH _ H) as [Hin | Hm].
  - left. now right.
  - rewrite lookup_insert in Hm. case_decide.
    + left. left. congruence.
    + now right.
Qed.

Lemma insertAdds_to_list_fresh l m :
  NoDup (map (fun a => Name (Info a)) l) ->
  Forall (fun a => m !! Name (Info a) = None) l ->
  Permutation (map_to_list (insertAdds l m))
              (map_to_list m ++ map (fun a => (Name (Info a), a)) l).
Proof.
  revert m. induction l as [ | a l IH]; intros m Hnd Hfresh.
  - cbn. now rewrite app_nil_r.
  - cbn [map] in Hnd. apply NoDup_cons in Hnd as [Ha Hnd].
    apply Forall_cons in Hfresh as [Hma Hfresh].
    rewrite insertAdds_cons, IH; [| exact Hnd |].
    + rewrite map_to_list_insert by exact Hma. cbn [map app].
      apply Permutation_middle.
    + rewrite Forall_forall in Hfresh |- *. intros b Hb.
      rewrite lookup_insert_ne; [now apply Hfresh |].
      intros Heq. apply Ha. rewrite Heq. now apply name_in_names.
Qed.

(** *** The loop over the functions, when none fails *)

Lemma runFuncs_cons_ok_fst ctx e fn rest fnAdds m :
  Apply fn ctx e = Ok fnAdds ->
  runFuncs Apply fmtV ctx e (fn :: rest) m
  = (EvApply fn (Name (Info e))
       :: fst (mergeAdds (Name (Info e)) fnAdds m)
       ++ fst (runFuncs Apply fmtV ctx e rest (insertAdds fnAdds m)),
     snd (runFuncs Apply fmtV ctx e rest (insertAdds fnAdds m))).
Proof.
  intros Hfn. cbn [runFuncs bind tell]. rewrite Hfn.
  destruct (mergeAdds_spec (Name (Info e)) fnAdds m) as (tr & Heq & _).
  rewrite Heq. cbn [bind fst].
  destruct (runFuncs Apply fmtV ctx e rest (insertAdds fnAdds m)).
  reflexivity.
Qed.

Lemma runFuncs_all_ok ctx e fns outs m :
  Forall2 (fun fn out => Apply fn ctx e = Ok out) fns outs ->
  snd (runFuncs Apply fmtV ctx e fns m) = Ok (insertAdds (concat outs) m)
  /\ (length (loggedLines (fst (runFuncs Apply fmtV ctx e fns m)))
      + size (insertAdds (concat outs) m)
      = size m + length (concat outs))%nat
  /\ (NoDup (map (fun a => Name (Info a)) (concat outs)) ->
      Forall (fun a => m !! Name (Info a) = None) (concat outs) ->
      fst (runFuncs Apply fmtV ctx e fns m)
      = map (fun fn => EvApply fn (Name (Info e))) fns).
Proof.
  intros Hall. revert m.
  induction Hall as [ | fn out fns outs Hfn _ IH]; intros m.
  - split; [reflexivity |]. split; [cbn; lia | reflexivity].
  - rewrite (runFuncs_cons_ok_fst ctx e fn fns out m Hfn).
    cbn [fst snd concat]. rewrite insertAdds_app.
    destruct (IH (insertAdds out m)) as (IH1 & IH2 & IH3).
    split; [exact IH1 |]. split.
    + change (EvApply fn (Name (Info e)) :: ?t)
        with ([EvApply fn (Name (Info e))] ++ t).
      rewrite !loggedLines_app, !length_app.
      change (length (loggedLines [EvApply fn (Name (Info e))])) with 0%nat.
      pose proof (mergeAdds_count (Name (Info e)) out m). lia.
    + intros Hnd Hfresh. rewrite map_app in Hnd.
      apply NoDup_app in Hnd as (Hnd1 & Hdisj & Hnd2).
      apply Forall_app in Hfresh as [Hf1 Hf2].
      rewrite (mergeAdds_fresh _ _ _ Hnd1 Hf1). cbn [app map]. f_equal.
      apply IH3; [exact Hnd2 |].
      rewrite Forall_forall in Hf2 |- *. intros b Hb.
      rewrite insertAdds_lookup_other; [now apply Hf2 |].
      apply Forall_forall. intros a Ha Heq.
      apply (Hdisj (Name (Info a))).
      * now apply name_in_names.
      * rewrite Heq. now apply name_in_names.
Qed.

Lemma addsChildren_all_ok ctx e fns outs :
  Forall2 (fun fn out => Apply fn ctx e = Ok out) fns outs ->
  addsChildren Apply fmtV ord ctx fns e
  = (fst (runFuncs Apply fmtV ctx e fns ∅),
     Ok (map (fun kv => perNodeRecurse (snd kv) fns)
             (ord (map_to_list (insertAdds (concat outs) ∅))))).
Proof.
  intros Hall. unfold addsChildren.
  destruct (runFuncs_all_ok ctx e fns outs ∅ Hall) as (Hsnd & _).
  destruct (runFuncs Apply fmtV ctx e fns ∅) as [tr r].
  cbn [snd] in Hsnd. subst r. cbn [bind ret fst].
  now rewrite app_nil_r.
Qed.

(** X9: when no function adds anything to the entry (in particular
    when there are no functions), the per-entry directory lists no child;
    every function is still applied, once, in list order, and nothing is
    logged. *)
Theorem adds_empty_when_nothing_added ctx e fns :
  valid_order ord ->
  Forall (fun fn => Apply fn ctx e = Ok []) fns ->
  addsChildren Apply fmtV ord ctx fns e
  = (map (fun fn => EvApply fn (Name (Info e))) fns, Ok [])
  /\ Children Apply fmtV ord ctx (newAddsForChild fns e)
     = (map (fun fn => EvApply fn (Name (Info e))) fns, ([], None)).
Proof.
  intros Hord Hall.
  assert (Hall2 : Forall2 (fun fn out => Apply fn ctx e = Ok out) fns
                          (map (fun _ => []) fns)).
  { induction Hall; constructor; assumption. }
  assert (Hnil : concat (map (fun _ : PerNodeFunc =>
                                @nil (T context PerNodeFunc)) fns) = []).
  { clear. induction fns; [reflexivity | assumption]. }
  assert (Hadds : addsChildren Apply fmtV ord ctx fns e
                  = (map (fun fn => EvApply fn (Name (Info e))) fns, Ok [])).
  { rewrite (addsChildren_all_ok ctx e fns _ Hall2).
    destruct (runFuncs_all_ok ctx e fns _ ∅ Hall2) as (_ & _ & Htr).
    rewrite Htr, Hnil by (rewrite Hnil; constructor).
    cbn [insertAdds fold_left]. rewrite map_to_list_empty.
    now rewrite (Permutation_nil (Permutation_sym (Hord []))). }
  split; [exact Hadds |].
  cbn [newAddsForChild Children]. now rewrite Hadds.
Qed.

(** X10: when the functions succeed and no two of their additions share
    a name, the per-entry directory lists every addition of every
    function, each sent through [perNodeRecurse], in some order; the
    events are the applications, in list order, and nothing is logged. *)
Theorem adds_all_listed_without_conflict ctx e fns outs :
  valid_order ord ->
  Forall2 (fun fn out => Apply fn ctx e = Ok out) fns outs ->
  NoDup (map (fun a => Name (Info a)) (concat outs)) ->
  exists l,
    addsChildren Apply fmtV ord ctx fns e
    = (map (fun fn => EvApply fn (Name (Info e))) fns, Ok l)
    /\ Permutation l (map (fun a => perNodeRecurse a fns) (concat outs)).
Proof.
  intros Hord Hall Hnd.
  assert (Hfresh : Forall (fun a => (∅ : gmap string (T context PerNodeFunc))
                                      !! Name (Info a) = None)
                          (concat outs)).
  { apply Forall_forall. intros a _. apply lookup_empty. }
  eexists. split.
  - rewrite (addsChildren_all_ok ctx e fns outs Hall).
    destruct (runFuncs_all_ok ctx e fns outs ∅ Hall) as (_ & _ & Htr).
    now rewrite (Htr Hnd Hfresh).
  - rewrite (Permutation_map _ (Hord _)).
    rewrite (Permutation_map _ (insertAdds_to_list_fresh _ _ Hnd Hfresh)).
    rewrite map_to_list_empty. cbn [app]. now rewrite map_map.
Qed.

(** X11: last writer wins, for any number of functions. When the
    functions succeed, the additions taken in the order the functions
    return them, exactly one listed child carries a given name: the last
    addition of that name, sent through [perNodeRecurse]. *)
Theorem adds_last_addition_wins ctx e fns outs pre w post x :
  valid_order ord ->
  Forall2 (fun fn out => Apply fn ctx e = Ok out) fns outs ->
  concat outs = pre ++ w :: post ->
  Name (Info w) = x ->
  Forall (fun a => Name (Info a) <> x) post ->
  exists tr l,
    addsChildren Apply fmtV ord ctx fns e = (tr, Ok l)
    /\ filter (fun c => Name (Info c) = x) l = [perNodeRecurse w fns].
Proof.
  intros Hord Hall Hcat Hw Hpost. do 2 eexists. split.
  - apply (addsChildren_all_ok ctx e fns outs Hall).
  - apply listing_named; [exact Hord | |].
    + apply keyed_by_name_insertAdds, keyed_by_name_empty.
    + rewrite Hcat. now apply insertAdds_lookup_last.
Qed.

(** X12: nothing is listed that no function returned. When the
    functions succeed, every listed child is some function's addition
    sent through [perNodeRecurse], and carries that addition's name. *)
Theorem adds_children_come_from_functions ctx e fns outs l c :
  valid_order ord ->
  Forall2 (fun fn out => Apply fn ctx e = Ok out) fns outs ->
  snd (addsChildren Apply fmtV ord ctx fns e) = Ok l ->
  In c l ->
  exists w, In w (concat outs)
            /\ c = perNodeRecurse w fns
            /\ Name (Info c) = Name (Info w).
Proof.
  intros Hord Hall Hl Hc.
  rewrite (addsChildren_all_ok ctx e fns outs Hall) in Hl.
  cbn [snd] in Hl. injection Hl as <-.
  apply in_map_iff in Hc as ([k v] & <- & Hkv). cbn [snd].
  apply (Permutation_in _ (Hord _)) in Hkv.
  apply list_elem_of_In, elem_of_map_to_list in Hkv.
  apply insertAdds_lookup_In in Hkv as [Hin | Hempty].
  - exists v. split; [exact Hin |]. split; [reflexivity |].
    now rewrite perNodeRecurse_Info.
  - now rewrite lookup_empty in Hempty.
Qed.

(** X13: every addition is either listed or reported. When the
    functions succeed, the number of children listed plus the number of
    conflict lines logged is the number of additions the functions
    returned. *)
Theorem adds_listed_or_reported ctx e fns outs :
  valid_order ord ->
  Forall2 (fun fn out => Apply fn ctx e = Ok out) fns outs ->
  exists tr l,
    addsChildren Apply fmtV ord ctx fns e = (tr, Ok l)
    /\ (length l + length (loggedLines tr) = length (concat outs))%nat.
Proof.
  intros Hord Hall. do 2 eexists. split.
  - apply (addsChildren_all_ok ctx e fns outs Hall).
  - destruct (runFuncs_all_ok ctx e fns outs ∅ Hall) as (_ & Hcount & _).
    rewrite length_map, (Permutation_length (Hord _)), length_map_to_list.
    rewrite map_size_empty in Hcount. lia.
Qed.

(** *** The log, read off the additions in encounter order *)





End Additions.

(** * The further properties on the small tree *)

Lemma dir1_finds_what_it_lists (c0 : Demo.node) :
  In c0 (fst (snd (Children Demo.apply Demo.fmt Demo.inOrder tt Demo.dir1))) ->
  snd (Child Demo.apply Demo.fmt Demo.inOrder tt Demo.dir1 (Name (Info c0)))
  = Ok c0.
Proof. intros [<- | [<- | [<- | []]]]; reflexivity. Qed.

Lemma adds_child_delegates_witness :
  Child Demo.apply Demo.fmt Demo.inOrder tt
        (perNodeAdds (WithName (CopyFileInfo (InfoP Demo.dir1)) addsDirName)
                     Demo.dir1 [Demo.FnView])
        "fileA"
  = ([EvLookup "dir1" "fileA"],
     Ok (Par (newAddsForChild [Demo.FnView] Demo.fileA)))
  /\ Name (InfoP (newAddsForChild [Demo.FnView] Demo.fileA))
     = Name (Info Demo.fileA).
Proof.
  exact (adds_child_delegates Demo.apply Demo.fmt Demo.inOrder tt
           (WithName (CopyFileInfo (InfoP Demo.dir1)) addsDirName)
           Demo.dir1 [Demo.FnView] "fileA"
           [EvLookup "dir1" "fileA"] (Ok Demo.fileA) eq_refl).
Defined.

Lemma wrapper_lookup_agrees_with_listing_witness :
  snd (Child Demo.apply Demo.fmt Demo.inOrder tt
             (ApplyPerNodeFuncs Demo.dir1 [Demo.FnView]) "dir2")
  = Ok (Par (ApplyPerNodeFuncs Demo.dir2 [Demo.FnView])).
Proof.
  apply (wrapper_lookup_agrees_with_listing Demo.apply Demo.fmt Demo.inOrder
           tt Demo.dir1 [Demo.FnView]
           (Par (ApplyPerNodeFuncs Demo.dir2 [Demo.FnView]))).
  - exact dir1_finds_what_it_lists.
  - repeat constructor; discriminate.
  - right. right. right. left. reflexivity.
Defined.

Lemma adds_lookup_agrees_with_listing_witness :
  snd (Child Demo.apply Demo.fmt Demo.inOrder tt
             (perNodeAdds (WithName (CopyFileInfo (InfoP Demo.dir1))
                                    addsDirName)
                          Demo.dir1 [Demo.FnView])
             "fileB")
  = Ok (Par (newAddsForChild [Demo.FnView] Demo.fileB)).
Proof.
  apply (adds_lookup_agrees_with_listing Demo.apply Demo.fmt Demo.inOrder
           tt (WithName (CopyFileInfo (InfoP Demo.dir1)) addsDirName)
           Demo.dir1 [Demo.FnView]
           (Par (newAddsForChild [Demo.FnView] Demo.fileB))).
  - exact dir1_finds_what_it_lists.
  - right. left. reflexivity.
Defined.

Lemma browsing_applies_no_function_witness :
  appliedFuncs (fst (Child Demo.apply Demo.fmt Demo.inOrder tt
                           (ApplyPerNodeFuncs Demo.parent [Demo.FnBad])
                           "dir1")) = []
  /\ loggedLines (fst (Child Demo.apply Demo.fmt Demo.inOrder tt
                             (ApplyPerNodeFuncs Demo.parent [Demo.FnBad])
                             "dir1")) = []
  /\ appliedFuncs (fst (Children Demo.apply Demo.fmt Demo.inOrder tt
                                 (ApplyPerNodeFuncs Demo.parent
                                                    [Demo.FnBad]))) = []
  /\ loggedLines (fst (Children Demo.apply Demo.fmt Demo.inOrder tt
                                (ApplyPerNodeFuncs Demo.parent
                                                   [Demo.FnBad]))) = [].
Proof.
  exact (browsing_applies_no_function Demo.apply Demo.fmt Demo.inOrder tt
           (ApplyPerNodeFuncs Demo.parent [Demo.FnBad]) "dir1" eq_refl).
Defined.

Lemma walk_mirrors_original_witness :
  walk Demo.apply Demo.fmt Demo.inOrder tt
       (ApplyPerNodeFuncs Demo.parent [Demo.FnView]) ["dir1"; "dir2"]
  = ([EvLookup "parent" "dir1"; EvLookup "dir1" "dir2"],
     Ok (Par (ApplyPerNodeFuncs Demo.dir2 [Demo.FnView]))).
Proof.
  apply (walk_mirrors_original Demo.apply Demo.fmt Demo.inOrder tt
           Demo.parent [Demo.FnView] ["dir1"; "dir2"]).
  repeat constructor; discriminate.
Defined.

Lemma walk_reaches_additions_witness :
  walk Demo.apply Demo.fmt Demo.inOrder tt
       (ApplyPerNodeFuncs Demo.parent [Demo.FnView])
       (["dir1"] ++ [addsDirName; "fileA"])
  = ([EvLookup "parent" "dir1"] ++ [EvLookup "dir1" "fileA"],
     Ok (Par (newAddsForChild [Demo.FnView] Demo.fileA))).
Proof.
  apply (walk_reaches_additions Demo.apply Demo.fmt Demo.inOrder tt
           Demo.parent [Demo.FnView] ["dir1"] Demo.dir1 "fileA").
  - repeat constructor; discriminate.
  - reflexivity.
  - reflexivity.
Defined.

Lemma adds_empty_when_nothing_added_witness :
  addsChildren Scenario.apply Demo.fmt Demo.inOrder tt
               [Demo.FnView; Demo.FnPair; Demo.FnBad] Demo.fileB
  = (map (fun fn => EvApply fn (Name (Info Demo.fileB)))
         [Demo.FnView; Demo.FnPair; Demo.FnBad], Ok [])
  /\ Children Scenario.apply Demo.fmt Demo.inOrder tt
              (newAddsForChild [Demo.FnView; Demo.FnPair; Demo.FnBad]
                               Demo.fileB)
     = (map (fun fn => EvApply fn (Name (Info Demo.fileB)))
            [Demo.FnView; Demo.FnPair; Demo.FnBad], ([], None)).
Proof.
  apply (adds_empty_when_nothing_added Scenario.apply Demo.fmt Demo.inOrder
           tt Demo.fileB [Demo.FnView; Demo.FnPair; Demo.FnBad]).
  - exact valid_order_inOrder.
  - repeat constructor.
Defined.

Lemma adds_all_listed_without_conflict_witness :
  exists l,
    addsChildren Scenario.apply Demo.fmt Demo.reversed tt
                 [Demo.FnPair; Demo.FnAlt] Demo.fileB
    = (map (fun fn => EvApply fn (Name (Info Demo.fileB)))
           [Demo.FnPair; Demo.FnAlt], Ok l)
    /\ Permutation l (map (fun a => perNodeRecurse a [Demo.FnPair; Demo.FnAlt])
                          (concat [[]; [Demo.altX; Demo.viewY]])).
Proof.
  apply (adds_all_listed_without_conflict Scenario.apply Demo.fmt
           Demo.reversed tt Demo.fileB [Demo.FnPair; Demo.FnAlt]
           [[]; [Demo.altX; Demo.viewY]]).
  - exact valid_order_reversed.
  - repeat constructor.
  - cbn. apply NoDup_cons. split; [| apply NoDup_singleton].
    intros H. apply list_elem_of_In in H as [H | []]. discriminate H.
Defined.

Lemma adds_last_addition_wins_witness :
  exists tr l,
    addsChildren Scenario.apply Demo.fmt Demo.inOrder tt
                 [Demo.FnView; Demo.FnPair; Demo.FnAlt] Demo.fileA
    = (tr, Ok l)
    /\ filter (fun c => Name (Info c) = "x"%string) l
       = [perNodeRecurse Demo.altX [Demo.FnView; Demo.FnPair; Demo.FnAlt]].
Proof.
  apply (adds_last_addition_wins Scenario.apply Demo.fmt Demo.inOrder tt
           Demo.fileA [Demo.FnView; Demo.FnPair; Demo.FnAlt]
           [[Demo.viewX]; []; [Demo.altX; Demo.viewY]]
           [Demo.viewX] Demo.altX [Demo.viewY] "x"%string).
  - exact valid_order_inOrder.
  - repeat constructor.
  - reflexivity.
  - reflexivity.
  - repeat constructor. discriminate.
Defined.

Lemma adds_children_come_from_functions_witness :
  exists w,
    In w (concat [[Demo.viewX]; [Demo.altX; Demo.viewY]])
    /\ Demo.viewY = perNodeRecurse w [Demo.FnView; Demo.FnAlt]
    /\ Name (Info Demo.viewY) = Name (Info w).
Proof.
  apply (adds_children_come_from_functions Scenario.apply Demo.fmt
           Demo.inOrder tt Demo.fileA [Demo.FnView; Demo.FnAlt]
           [[Demo.viewX]; [Demo.altX; Demo.viewY]]
           [Demo.viewY; Demo.altX] Demo.viewY).
  - exact valid_order_inOrder.
  - repeat constructor.
  - vm_compute. reflexivity.
  - left. reflexivity.
Defined.

Lemma adds_listed_or_reported_witness :
  exists tr l,
    addsChildren Scenario.apply Demo.fmt Demo.inOrder tt
                 [Demo.FnView; Demo.FnAlt] Demo.fileA
    = (tr, Ok l)
    /\ (length l + length (loggedLines tr)
        = length (concat [[Demo.viewX]; [Demo.altX; Demo.viewY]]))%nat.
Proof.
  apply (adds_listed_or_reported Scenario.apply Demo.fmt Demo.inOrder tt
           Demo.fileA [Demo.FnView; Demo.FnAlt]
           [[Demo.viewX]; [Demo.altX; Demo.viewY]]).
  - exact valid_order_inOrder.
  - repeat constructor.
Defined.

